(** * Async operation registry (mcp/shared/async_operations.py)

    A shallow embedding of [ClientAsyncOperation], [ServerAsyncOperation],
    [BaseOperationManager] and [ServerAsyncOperationManager], and the
    properties of the status state machine, of expiry and of the reaper.

    Modelling conventions.
    - The [_operations] dict is a [gmap string _].  Only [create_operation]
      and [track_operation] store a record, each time a freshly built
      object, so a record object lives under one key at most; a reference
      to a record is therefore its key, and the in-place assignment
      [operation.f = v] on the record found under [tok] is the update of
      the map at [tok].
    - [time.time()] values and the [float] fields are rationals ([Q]); the
      truthiness test of Python on a float ([not x] holds for [0.0]) is
      kept.  The reading of the clock is an argument [now] of every method
      that reads it; a scan of the map reads it once.  The token returned
      by [generate_token] is an argument of [create_operation].  Sums of
      time stamps are exact: the rounding of a binary64 addition and the
      [OverflowError] of adding an [int] beyond the float range are not
      modelled, and no property stated below rests on the exact position
      of an expiry threshold.
    - [int] is [Z], [str] is [string], [T | None] is [option T]. *)

From stdpp Require Import gmap strings list fin_maps.
From Stdlib Require Import QArith.

Close Scope Q_scope.

(** ** Statuses *)

(** Modelled from the spec: the literal type [AsyncOperationStatus] of
    [mcp.types] (section 4.3 lists its seven values). *)
Inductive AsyncOperationStatus : Set :=
| submitted
| working
| input_required
| completed
| failed
| canceled
| unknown.

#[global] Instance AsyncOperationStatus_eq_dec : EqDecision AsyncOperationStatus.
Proof. solve_decision. Defined.

(** ** Floats as rationals *)

(** [a > b] on time stamps. *)
Definition Qgtb (a b : Q) : bool :=
  match (a ?= b)%Q with
  | Gt => true
  | _ => false
  end.

(** Python truthiness of a [float | None] field: [None] and [0.0] are falsy. *)
Definition truthy (x : option Q) : bool :=
  match x with
  | None => false
  | Some t => negb (Qeq_bool t 0)
  end.

(** ** The interface shared by the two record types *)

Class Operation (Op : Type) := is_expired : Q → Op → bool.

(** [dict.pop(token, None)] *)
Definition dict_pop {V} (tok : string) (d : gmap string V) : option V * gmap string V :=
  (d !! tok, delete tok d).

(** [del d[token]]: [None] stands for the [KeyError] of a missing key. *)
Definition dict_del {V} (tok : string) (d : gmap string V) : option (gmap string V) :=
  match d !! tok with
  | Some _ => Some (delete tok d)
  | None => None
  end.

(** ** BaseOperationManager *)

Section BaseOperationManager.
Context {Op : Type} `{!Operation Op}.

Definition _get_operation (tok : string) (ops : gmap string Op) : option Op :=
  ops !! tok.

Definition _set_operation (tok : string) (operation : Op) (ops : gmap string Op)
  : gmap string Op :=
  <[tok := operation]> ops.

Definition _remove_operation (tok : string) (ops : gmap string Op)
  : option Op * gmap string Op :=
  dict_pop tok ops.

Definition get_operation (tok : string) (ops : gmap string Op) : option Op :=
  _get_operation tok ops.

Definition base_remove_operation (tok : string) (ops : gmap string Op)
  : bool * gmap string Op :=
  let '(removed, ops') := _remove_operation tok ops in
  (bool_decide (is_Some removed), ops').

(** [[token for token, operation in self._operations.items() if operation.is_expired]] *)
Definition expired_tokens (now : Q) (ops : gmap string Op) : list string :=
  (filter (λ kv, is_expired now kv.2 = true) (map_to_list ops)).*1.

Definition cleanup_expired (now : Q) (ops : gmap string Op) : nat * gmap string Op :=
  let tokens := expired_tokens now ops in
  (length tokens, foldl (λ d tok, (_remove_operation tok d).2) ops tokens).

End BaseOperationManager.

(** ** ClientAsyncOperation *)

Record ClientAsyncOperation : Type := {
  client_token : string;
  client_tool_name : string;
  client_created_at : Q;
  client_keep_alive : Z
}.


Definition track_operation (tok tool : string) (keep_alive : Z) (now : Q)
    (ops : gmap string ClientAsyncOperation) : gmap string ClientAsyncOperation :=
  let operation :=
    {| client_token := tok; client_tool_name := tool;
       client_created_at := now; client_keep_alive := keep_alive |} in
  _set_operation tok operation ops.

Definition get_tool_name (tok : string) (ops : gmap string ClientAsyncOperation)
  : option string :=
  match _get_operation tok ops with
  | Some operation => Some (client_tool_name operation)
  | None => None
  end.

(** ** ServerAsyncOperation and its manager *)

Section Server.
(** [types.CallToolResult] and the [dict[str, Any]] of tool arguments are
    opaque to the registry. *)
Context {CallToolResult ArgDict : Type}.

Record ServerAsyncOperation : Type := {
  token : string;
  tool_name : string;
  arguments : ArgDict;
  status : AsyncOperationStatus;
  created_at : Q;
  keep_alive : Z;
  resolved_at : option Q;
  session_id : option string;
  result : option CallToolResult;
  error : option string
}.

(** Attribute assignments [op.status = s], [op.result = r], ... *)
Definition set_status (s : AsyncOperationStatus) (op : ServerAsyncOperation) :=
  {| token := token op; tool_name := tool_name op; arguments := arguments op;
     status := s; created_at := created_at op; keep_alive := keep_alive op;
     resolved_at := resolved_at op; session_id := session_id op;
     result := result op; error := error op |}.

Definition set_result (r : option CallToolResult) (op : ServerAsyncOperation) :=
  {| token := token op; tool_name := tool_name op; arguments := arguments op;
     status := status op; created_at := created_at op; keep_alive := keep_alive op;
     resolved_at := resolved_at op; session_id := session_id op;
     result := r; error := error op |}.

Definition set_error (e : option string) (op : ServerAsyncOperation) :=
  {| token := token op; tool_name := tool_name op; arguments := arguments op;
     status := status op; created_at := created_at op; keep_alive := keep_alive op;
     resolved_at := resolved_at op; session_id := session_id op;
     result := result op; error := e |}.

Definition set_resolved_at (t : option Q) (op : ServerAsyncOperation) :=
  {| token := token op; tool_name := tool_name op; arguments := arguments op;
     status := status op; created_at := created_at op; keep_alive := keep_alive op;
     resolved_at := t; session_id := session_id op;
     result := result op; error := error op |}.

(** [ServerAsyncOperation.is_expired], the clock reading being [now]. *)
Definition server_is_expired (now : Q) (self : ServerAsyncOperation) : bool :=
  if negb (truthy (resolved_at self)) then false
  else if bool_decide (status self ∈ [completed; failed; canceled]) then
    match resolved_at self with
    | Some r => Qgtb now (r + inject_Z (keep_alive self))%Q
    | None => false
    end
  else false.

#[global] Instance ServerAsyncOperation_is_expired : Operation ServerAsyncOperation :=
  server_is_expired.

Definition is_terminal (self : ServerAsyncOperation) : bool :=
  bool_decide (status self ∈ [completed; failed; canceled; unknown]).

Abbreviation Operations := (gmap string ServerAsyncOperation).

Definition create_operation (new_token : string) (now : Q)
    (tool : string) (args : ArgDict) (keep : Z) (session : option string)
    (ops : Operations) : ServerAsyncOperation * Operations :=
  let operation :=
    {| token := new_token; tool_name := tool; arguments := args;
       status := submitted; created_at := now; keep_alive := keep;
       resolved_at := None; session_id := session;
       result := None; error := None |} in
  (operation, _set_operation new_token operation ops).

Definition mark_working (tok : string) (ops : Operations) : bool * Operations :=
  match _get_operation tok ops with
  | None => (false, ops)
  | Some operation =>
      if bool_decide (status operation ≠ submitted) then (false, ops)
      else (true, <[tok := set_status working operation]> ops)
  end.

Definition complete_operation (tok : string) (res : CallToolResult) (now : Q)
    (ops : Operations) : bool * Operations :=
  match _get_operation tok ops with
  | None => (false, ops)
  | Some operation =>
      if bool_decide (status operation ∉ [submitted; working]) then (false, ops)
      else
        let operation := set_status completed operation in
        let operation := set_result (Some res) operation in
        let operation := set_resolved_at (Some now) operation in
        (true, <[tok := operation]> ops)
  end.

Definition fail_operation (tok : string) (err : string) (now : Q)
    (ops : Operations) : bool * Operations :=
  match _get_operation tok ops with
  | None => (false, ops)
  | Some operation =>
      if bool_decide (status operation ∉ [submitted; working]) then (false, ops)
      else
        let operation := set_status failed operation in
        let operation := set_error (Some err) operation in
        let operation := set_resolved_at (Some now) operation in
        (true, <[tok := operation]> ops)
  end.

Definition get_operation_result (tok : string) (ops : Operations)
  : option CallToolResult :=
  match _get_operation tok ops with
  | None => None
  | Some operation =>
      if bool_decide (status operation ≠ completed) then None
      else result operation
  end.

Definition cancel_operation (tok : string) (ops : Operations) : bool * Operations :=
  match _get_operation tok ops with
  | None => (false, ops)
  | Some operation =>
      if bool_decide (status operation ∉ [submitted; working]) then (false, ops)
      else (true, <[tok := set_status canceled operation]> ops)
  end.

Definition remove_operation (tok : string) (ops : Operations) : bool * Operations :=
  let '(removed, ops') := dict_pop tok ops in
  (bool_decide (is_Some removed), ops').

(** The [for] loop of [cleanup_expired_operations]; a [KeyError] of [del]
    aborts it. *)
Fixpoint del_all (tokens : list string) (ops : Operations) : option Operations :=
  match tokens with
  | [] => Some ops
  | tok :: rest =>
      match dict_del tok ops with
      | Some ops' => del_all rest ops'
      | None => None
      end
  end.

Definition cleanup_expired_operations (now : Q) (ops : Operations)
  : option (nat * Operations) :=
  let tokens := expired_tokens now ops in
  match del_all tokens ops with
  | Some ops' => Some (length tokens, ops')
  | None => None
  end.

Definition mark_input_required (tok : string) (ops : Operations) : bool * Operations :=
  match _get_operation tok ops with
  | None => (false, ops)
  | Some operation =>
      if bool_decide (status operation ∉ [submitted; working]) then (false, ops)
      else (true, <[tok := set_status input_required operation]> ops)
  end.

Definition mark_input_completed (tok : string) (ops : Operations) : bool * Operations :=
  match _get_operation tok ops with
  | None => (false, ops)
  | Some operation =>
      if bool_decide (status operation ≠ input_required) then (false, ops)
      else (true, <[tok := set_status working operation]> ops)
  end.

(** The records of one session.  [get_session_operations] returns the record
    objects themselves; [session_items] pairs each with the key it is stored
    under, which is what the loop of [cancel_session_operations] assigns
    through. *)
Definition session_items (sid : string) (ops : Operations)
  : list (string * ServerAsyncOperation) :=
  filter (λ kv, session_id kv.2 = Some sid) (map_to_list ops).

Definition get_session_operations (sid : string) (ops : Operations)
  : list ServerAsyncOperation :=
  (session_items sid ops).*2.

(** One iteration of the loop of [cancel_session_operations]. *)
Definition cancel_step (acc : nat * Operations) (item : string * ServerAsyncOperation)
  : nat * Operations :=
  let '(canceled_count, ops) := acc in
  let '(tok, op) := item in
  if negb (is_terminal op)
  then (S canceled_count, <[tok := set_status canceled op]> ops)
  else (canceled_count, ops).

Definition cancel_session_operations (sid : string) (ops : Operations)
  : nat * Operations :=
  foldl cancel_step (O, ops) (session_items sid ops).

(** ** Histories of calls *)

(** A call of a state-changing method of the server manager, with what the
    environment answered during it (generated token, clock). *)
Inductive call : Type :=
| CreateOperation (new_token : string) (now : Q) (tool : string) (args : ArgDict)
    (keep : Z) (session : option string)
| MarkWorking (tok : string)
| CompleteOperation (tok : string) (res : CallToolResult) (now : Q)
| FailOperation (tok : string) (err : string) (now : Q)
| CancelOperation (tok : string)
| RemoveOperation (tok : string)
| CleanupExpired (now : Q)
| CleanupExpiredOperations (now : Q)
| CancelSessionOperations (sid : string)
| MarkInputRequired (tok : string)
| MarkInputCompleted (tok : string).

Definition exec (c : call) (ops : Operations) : Operations :=
  match c with
  | CreateOperation new_token now tool args keep session =>
      (create_operation new_token now tool args keep session ops).2
  | MarkWorking tok => (mark_working tok ops).2
  | CompleteOperation tok res now => (complete_operation tok res now ops).2
  | FailOperation tok err now => (fail_operation tok err now ops).2
  | CancelOperation tok => (cancel_operation tok ops).2
  | RemoveOperation tok => (remove_operation tok ops).2
  | CleanupExpired now => (cleanup_expired now ops).2
  | CleanupExpiredOperations now =>
      match cleanup_expired_operations now ops with
      | Some (_, ops') => ops'
      | None => ops
      end
  | CancelSessionOperations sid => (cancel_session_operations sid ops).2
  | MarkInputRequired tok => (mark_input_required tok ops).2
  | MarkInputCompleted tok => (mark_input_completed tok ops).2
  end.

Definition run (calls : list call) (ops : Operations) : Operations :=
  foldl (λ d c, exec c d) ops calls.

(** ** Vocabulary of the properties *)

(** The six transition methods, and the table of section 4.3 of the
    specification: the statuses each of them may be called from. *)
Inductive transition : Type :=
| TMarkWorking
| TMarkInputRequired
| TMarkInputCompleted
| TCompleteOperation (res : CallToolResult) (now : Q)
| TFailOperation (err : string) (now : Q)
| TCancelOperation.

Definition allowed_sources (t : transition) : list AsyncOperationStatus :=
  match t with
  | TMarkWorking => [submitted]
  | TMarkInputRequired => [submitted; working]
  | TMarkInputCompleted => [input_required]
  | TCompleteOperation _ _ => [submitted; working]
  | TFailOperation _ _ => [submitted; working]
  | TCancelOperation => [submitted; working]
  end.

Definition transit (t : transition) (tok : string) (ops : Operations)
  : bool * Operations :=
  match t with
  | TMarkWorking => mark_working tok ops
  | TMarkInputRequired => mark_input_required tok ops
  | TMarkInputCompleted => mark_input_completed tok ops
  | TCompleteOperation res now => complete_operation tok res now ops
  | TFailOperation err now => fail_operation tok err now ops
  | TCancelOperation => cancel_operation tok ops
  end.

(** Calls that take the record under [tok] out of the map or put another
    one in its place. *)
Definition replaces (tok : string) (c : call) : Prop :=
  match c with
  | CreateOperation new_token _ _ _ _ _ => new_token = tok
  | RemoveOperation tok' => tok' = tok
  | _ => False
  end.

(** The effect of [cancel_session_operations] on one record. *)
Definition live_in_session (sid : string) (op : ServerAsyncOperation) : bool :=
  bool_decide (session_id op = Some sid) && negb (is_terminal op).

Definition cancel_if_live (sid : string) (op : ServerAsyncOperation)
  : ServerAsyncOperation :=
  if live_in_session sid op then set_status canceled op else op.

(** What every record of a map built by the manager satisfies, status by
    status. *)
Definition record_ok (tok : string) (op : ServerAsyncOperation) : Prop :=
  token op = tok ∧
  match status op with
  | completed => is_Some (result op) ∧ error op = None ∧ is_Some (resolved_at op)
  | failed => result op = None ∧ is_Some (error op) ∧ is_Some (resolved_at op)
  | unknown => False
  | submitted | working | input_required | canceled =>
      result op = None ∧ error op = None ∧ resolved_at op = None
  end.

(** Exactly one of the [result] and [error] fields holds a value. *)
Definition exactly_one_populated (op : ServerAsyncOperation) : Prop :=
  (is_Some (result op) ∧ error op = None) ∨ (result op = None ∧ is_Some (error op)).

Definition all_ok (ops : Operations) : Prop :=
  ∀ tok op, ops !! tok = Some op → record_ok tok op.

End Server.

(** ** More vocabulary *)

Section MoreVocabulary.
Context {CallToolResult ArgDict : Type}.

(** The status a transition method assigns when it accepts the call. *)
Definition target_status (t : @transition CallToolResult) : AsyncOperationStatus :=
  match t with
  | TMarkWorking => working
  | TMarkInputRequired => input_required
  | TMarkInputCompleted => working
  | TCompleteOperation _ _ => completed
  | TFailOperation _ _ => failed
  | TCancelOperation => canceled
  end.

(** The record a transition method leaves in place of [op] when it accepts
    the call. *)
Definition transit_record (t : @transition CallToolResult)
    (op : @ServerAsyncOperation CallToolResult ArgDict)
  : @ServerAsyncOperation CallToolResult ArgDict :=
  match t with
  | TMarkWorking => set_status working op
  | TMarkInputRequired => set_status input_required op
  | TMarkInputCompleted => set_status working op
  | TCompleteOperation res now =>
      set_resolved_at (Some now) (set_result (Some res) (set_status completed op))
  | TFailOperation err now =>
      set_resolved_at (Some now) (set_error (Some err) (set_status failed op))
  | TCancelOperation => set_status canceled op
  end.

(** The fields no method assigns after the record is built. *)
Definition identity_fields (op : @ServerAsyncOperation CallToolResult ArgDict)
  : string * string * ArgDict * Q * Z * option string :=
  (token op, tool_name op, arguments op, created_at op, keep_alive op, session_id op).

(** The token a call stores a new record under, if it is a creation. *)
Definition created_token (c : @call CallToolResult ArgDict) : option string :=
  match c with
  | CreateOperation new_token _ _ _ _ _ => Some new_token
  | _ => None
  end.

End MoreVocabulary.


(** ** A sample run

    The end-to-end scenario of the specification: tool [sum] with arguments
    [a = 1], [b = 2] and a keep-alive of five seconds, created at time 10
    under token [t] in session [s]. *)

Definition sample_args : list (string * Z) := [("a", 1%Z); ("b", 2%Z)].

Definition sample_submitted : @ServerAsyncOperation string (list (string * Z)) :=
  {| token := "t"; tool_name := "sum"; arguments := sample_args;
     status := submitted; created_at := 10; keep_alive := 5;
     resolved_at := None; session_id := Some "s";
     result := None; error := None |}.

Definition sample_completed : @ServerAsyncOperation string (list (string * Z)) :=
  {| token := "t"; tool_name := "sum"; arguments := sample_args;
     status := completed; created_at := 10; keep_alive := 5;
     resolved_at := Some 12%Q; session_id := Some "s";
     result := Some "total=3"; error := None |}.

Definition sample_canceled : @ServerAsyncOperation string (list (string * Z)) :=
  {| token := "t"; tool_name := "sum"; arguments := sample_args;
     status := canceled; created_at := 10; keep_alive := 5;
     resolved_at := None; session_id := Some "s";
     result := None; error := None |}.

Definition sample_create : @call string (list (string * Z)) :=
  CreateOperation "t" 10 "sum" sample_args 5 (Some "s").

Definition ops_submitted : gmap string (@ServerAsyncOperation string (list (string * Z))) :=
  run [sample_create] ∅.

Definition ops_completed : gmap string (@ServerAsyncOperation string (list (string * Z))) :=
  run [sample_create; MarkWorking "t"; CompleteOperation "t" "total=3" 12] ∅.

Definition ops_canceled : gmap string (@ServerAsyncOperation string (list (string * Z))) :=
  run [sample_create; CancelOperation "t"] ∅.

Definition sample_working : @ServerAsyncOperation string (list (string * Z)) :=
  set_status working sample_submitted.

Definition sample_waiting : @ServerAsyncOperation string (list (string * Z)) :=
  set_status input_required sample_submitted.

Definition ops_working : gmap string (@ServerAsyncOperation string (list (string * Z))) :=
  run [sample_create; MarkWorking "t"] ∅.

Definition ops_waiting : gmap string (@ServerAsyncOperation string (list (string * Z))) :=
  run [sample_create; MarkInputRequired "t"] ∅.

Definition sample_create_other : @call string (list (string * Z)) :=
  CreateOperation "u" 20 "sum" sample_args 5 None.

(** A record as no method builds it: failed, yet with a result. *)
Definition sample_failed_with_result : @ServerAsyncOperation string (list (string * Z)) :=
  {| token := "t"; tool_name := "sum"; arguments := sample_args;
     status := failed; created_at := 10; keep_alive := 5;
     resolved_at := Some 12%Q; session_id := Some "s";
     result := Some "stale"; error := Some "boom" |}.

Definition ops_failed_with_result
  : gmap string (@ServerAsyncOperation string (list (string * Z))) :=
  <["t" := sample_failed_with_result]> ∅.

(** Three operations: [t], working, and [d], completed, of session [s];
    [u], working, of session [o]. *)
Definition sample_done : @ServerAsyncOperation string (list (string * Z)) :=
  {| token := "d"; tool_name := "sum"; arguments := sample_args;
     status := completed; created_at := 10; keep_alive := 5;
     resolved_at := Some 12%Q; session_id := Some "s";
     result := Some "total=3"; error := None |}.

Definition sample_other_session : @ServerAsyncOperation string (list (string * Z)) :=
  {| token := "u"; tool_name := "sum"; arguments := sample_args;
     status := working; created_at := 10; keep_alive := 5;
     resolved_at := None; session_id := Some "o";
     result := None; error := None |}.

Definition ops_sessions : gmap string (@ServerAsyncOperation string (list (string * Z))) :=
  <["t" := sample_working]> (<["d" := sample_done]> (<["u" := sample_other_session]> ∅)).

(** * Properties *)

(** ** Time stamps *)

Lemma Qgtb_true (a b : Q) : Qgtb a b = true ↔ (b < a)%Q.
Proof.
  unfold Qgtb. rewrite (Qgt_alt a b).
  destruct (a ?= b)%Q; split; congruence.
Qed.

Lemma Qgtb_false (a b : Q) : Qgtb a b = false ↔ (a <= b)%Q.
Proof.
  unfold Qgtb. rewrite Qle_alt.
  destruct (a ?= b)%Q; split; congruence.
Qed.

(** ** The reaper, for any record type *)

Section BaseProperties.
Context {Op : Type} `{!Operation Op}.
Implicit Types (ops d : gmap string Op) (tok k : string).

Lemma expired_tokens_spec now ops k :
  k ∈ expired_tokens now ops ↔ ∃ op, ops !! k = Some op ∧ is_expired now op = true.
Proof.
  unfold expired_tokens. rewrite list_elem_of_fmap. split.
  - intros [[k' op] [-> [Hexp Hin]%list_elem_of_filter]].
    exists op. by rewrite <- elem_of_map_to_list.
  - intros (op & Hk & Hexp). exists (k, op). split; [done|].
    apply list_elem_of_filter. by rewrite elem_of_map_to_list.
Qed.

Lemma expired_tokens_NoDup now ops : NoDup (expired_tokens now ops).
Proof.
  unfold expired_tokens. apply NoDup_fmap_fst.
  - intros k x y [_ Hx%elem_of_map_to_list]%list_elem_of_filter
      [_ Hy%elem_of_map_to_list]%list_elem_of_filter. congruence.
  - apply NoDup_filter, NoDup_map_to_list.
Qed.

Lemma remove_all_lookup (l : list string) d k :
  foldl (λ d tok, (_remove_operation tok d).2) d l !! k
  = if decide (k ∈ l) then None else d !! k.
Proof.
  revert d. induction l as [|t l IH]; intros d; cbn [foldl].
  - destruct (decide (k ∈ [])) as [Hin|_]; [by apply elem_of_nil in Hin|done].
  - rewrite IH. unfold _remove_operation, dict_pop; cbn [snd].
    destruct (decide (k ∈ l)) as [Hl|Hl], (decide (k ∈ t :: l)) as [Htl|Htl];
      try done.
    + exfalso. set_solver.
    + apply elem_of_cons in Htl as [->|?]; [apply lookup_delete_eq|done].
    + apply lookup_delete_ne. set_solver.
Qed.

Lemma remove_all_size (l : list string) d :
  NoDup l → (∀ k, k ∈ l → is_Some (d !! k)) →
  size (foldl (λ d tok, (_remove_operation tok d).2) d l) + length l = size d.
Proof.
  revert d. induction l as [|t l IH]; intros d Hnd Hin; cbn [foldl length]; [lia|].
  apply NoDup_cons in Hnd as [Ht Hnd].
  assert (is_Some (d !! t)) as Hsome by (apply Hin; set_solver).
  specialize (IH (_remove_operation t d).2 Hnd).
  unfold _remove_operation, dict_pop in *; cbn [snd] in *.
  rewrite map_size_delete_Some in IH by done.
  pose proof (map_size_ne_0_lookup_2 d t Hsome).
  enough (size (foldl (λ d tok, delete tok d) (delete t d) l) + length l
          = pred (size d)) by lia.
  apply IH. intros k Hk. rewrite lookup_delete_ne; [apply Hin|]; set_solver.
Qed.

Lemma cleanup_expired_lookup now ops k :
  (cleanup_expired now ops).2 !! k
  = match ops !! k with
    | Some op => if is_expired now op then None else Some op
    | None => None
    end.
Proof.
  unfold cleanup_expired; simpl. rewrite remove_all_lookup.
  case_decide as Hin.
  - apply expired_tokens_spec in Hin as (op & -> & ->). done.
  - destruct (ops !! k) as [op|] eqn:Hk; [|done].
    destruct (is_expired now op) eqn:Hexp; [|done].
    exfalso. apply Hin, expired_tokens_spec. eauto.
Qed.

End BaseProperties.

(** ** The server manager *)

(** [H : s ∈ [s1; ...; sn]] where [s] is none of the [si]. *)
Ltac absurd_elem H :=
  repeat (apply elem_of_cons in H as [H|H]; [discriminate H|]);
  by apply elem_of_nil in H.

Section ServerProperties.
Context {CallToolResult ArgDict : Type}.
Abbreviation Record_ := (@ServerAsyncOperation CallToolResult ArgDict).
Implicit Types (op : Record_) (ops d : gmap string Record_) (tok k sid : string).

(** *** [del] never raises in [cleanup_expired_operations] *)

Lemma del_all_remove_all (l : list string) d :
  NoDup l → (∀ k, k ∈ l → is_Some (d !! k)) →
  del_all l d = Some (foldl (λ d tok, (_remove_operation tok d).2) d l).
Proof.
  revert d. induction l as [|t l IH]; intros d Hnd Hin; cbn [del_all foldl]; [done|].
  apply NoDup_cons in Hnd as [Ht Hnd].
  destruct (Hin t) as [x Hx]; [set_solver|].
  unfold dict_del, _remove_operation, dict_pop. rewrite Hx. cbn [snd].
  apply IH; [done|]. intros k Hk.
  rewrite lookup_delete_ne; [apply Hin|]; set_solver.
Qed.

Lemma cleanup_expired_operations_eq now ops :
  cleanup_expired_operations now ops = Some (cleanup_expired now ops).
Proof.
  unfold cleanup_expired_operations, cleanup_expired.
  rewrite del_all_remove_all; [done|apply expired_tokens_NoDup|].
  intros k (op & -> & _)%expired_tokens_spec. eauto.
Qed.

(** *** The loop of [cancel_session_operations] *)

Lemma cancel_fold_count (l : list (string * Record_)) n d :
  (foldl cancel_step (n, d) l).1
  = n + length (filter (λ kv, is_terminal kv.2 = false) l).
Proof.
  revert n d. induction l as [|[t op] l IH]; intros n d; cbn [foldl].
  - rewrite filter_nil. simpl. lia.
  - rewrite filter_cons. cbn [cancel_step snd].
    destruct (is_terminal op) eqn:Hterm; cbn [negb]; rewrite IH.
    + rewrite decide_False by done. done.
    + rewrite decide_True by done. simpl. lia.
Qed.

Lemma cancel_fold_lookup (l : list (string * Record_)) n d k :
  NoDup l.*1 →
  (foldl cancel_step (n, d) l).2 !! k
  = match (list_to_map l : gmap string Record_) !! k with
    | Some op => if is_terminal op then d !! k else Some (set_status canceled op)
    | None => d !! k
    end.
Proof.
  revert n d. induction l as [|[t op] l IH]; intros n d Hnd; cbn [foldl].
  - by rewrite list_to_map_nil, lookup_empty.
  - rewrite fmap_cons in Hnd. cbn [fst] in Hnd. apply NoDup_cons in Hnd as [Ht Hnd].
    apply (not_elem_of_list_to_map_1 (M:=gmap string)) in Ht.
    rewrite list_to_map_cons. cbn [cancel_step fst].
    destruct (is_terminal op) eqn:Hterm; cbn [negb]; rewrite IH by done.
    + destruct (decide (t = k)) as [->|Hne].
      * by rewrite Ht, lookup_insert_eq, Hterm.
      * by rewrite lookup_insert_ne.
    + destruct (decide (t = k)) as [->|Hne].
      * by rewrite Ht, !lookup_insert_eq, Hterm.
      * by rewrite !lookup_insert_ne.
Qed.

Lemma session_items_NoDup sid ops : NoDup (session_items sid ops).*1.
Proof.
  unfold session_items. apply NoDup_fmap_fst.
  - intros k x y [_ Hx%elem_of_map_to_list]%list_elem_of_filter
      [_ Hy%elem_of_map_to_list]%list_elem_of_filter. congruence.
  - apply NoDup_filter, NoDup_map_to_list.
Qed.

Lemma cancel_session_operations_lookup sid ops k :
  (cancel_session_operations sid ops).2 !! k = cancel_if_live sid <$> ops !! k.
Proof.
  unfold cancel_session_operations.
  rewrite cancel_fold_lookup by apply session_items_NoDup.
  unfold session_items. rewrite <- map_filter_alt, map_lookup_filter.
  unfold cancel_if_live, live_in_session.
  destruct (ops !! k) as [op|] eqn:Hk; simpl; [|done].
  case_guard as Hs; simpl in *.
  - rewrite bool_decide_true by done. simpl.
    by destruct (is_terminal op).
  - by rewrite bool_decide_false.
Qed.

Lemma cancel_session_operations_count sid ops :
  (cancel_session_operations sid ops).1
  = size (filter (λ kv, live_in_session sid kv.2 = true) ops).
Proof.
  unfold cancel_session_operations. rewrite cancel_fold_count. simpl.
  unfold session_items. rewrite list_filter_filter.
  rewrite map_filter_alt, map_size_list_to_map.
  - f_equal. apply list_filter_iff. intros [t op]; simpl.
    unfold live_in_session. rewrite andb_true_iff, bool_decide_eq_true.
    rewrite negb_true_iff. tauto.
  - apply NoDup_fmap_fst.
    + intros t x y [_ Hx%elem_of_map_to_list]%list_elem_of_filter
        [_ Hy%elem_of_map_to_list]%list_elem_of_filter. congruence.
    + apply NoDup_filter, NoDup_map_to_list.
Qed.

(** *** The record invariant along a history *)

Lemma all_ok_empty : all_ok (∅ : gmap string Record_).
Proof. intros tok op Hk. by rewrite lookup_empty in Hk. Qed.

Lemma all_ok_insert tok op ops :
  all_ok ops → record_ok tok op → all_ok (<[tok := op]> ops).
Proof.
  intros Hok Hop k op' Hk. destruct (decide (tok = k)) as [->|Hne].
  - rewrite lookup_insert_eq in Hk. by injection Hk as <-.
  - rewrite lookup_insert_ne in Hk by done. by apply Hok.
Qed.

Lemma all_ok_cancel_if_live sid tok op :
  record_ok tok op → record_ok tok (cancel_if_live sid op).
Proof.
  unfold cancel_if_live, live_in_session, is_terminal, record_ok.
  intros [Htok Hst]. destruct (bool_decide (session_id op = Some sid)); [|done].
  destruct (status op) eqn:Hs; simpl; rewrite ?Hs; done.
Qed.

(** A transition method: look the record up, reject or assign. *)
Ltac transition_ok Hok :=
  let Hk := fresh "Hk" in
  let Hs := fresh "Hs" in
  let Hsrc := fresh "Hsrc" in
  unfold _get_operation;
  match goal with
  | |- context [ ?ops !! ?tok ] => destruct (ops !! tok) as [?op|] eqn:Hk
  end; [|done];
  case_bool_decide as Hsrc; [done|];
  cbn [snd]; apply all_ok_insert; [done|];
  destruct (Hok _ _ Hk) as [? ?]; split; [done|]; simpl;
  match type of Hk with
  | _ = Some ?o =>
      destruct (status o) eqn:Hs; simpl in *;
      first [ by intuition eauto
            | by (exfalso; apply Hsrc)
            | by (exfalso; absurd_elem Hsrc) ]
  end.

Lemma all_ok_exec (c : call) ops : all_ok ops → all_ok (exec c ops).
Proof.
  intros Hok. destruct c; cbn [exec].
  - unfold create_operation, _set_operation. cbn [snd].
    apply all_ok_insert; [done|]. by split.
  - unfold mark_working. transition_ok Hok.
  - unfold complete_operation. transition_ok Hok.
  - unfold fail_operation. transition_ok Hok.
  - unfold cancel_operation. transition_ok Hok.
  - unfold remove_operation, dict_pop. cbn [snd].
    intros k op [_ Hk]%lookup_delete_Some. by apply Hok.
  - intros k op. rewrite cleanup_expired_lookup.
    destruct (ops !! k) as [op'|] eqn:Hk; [|done].
    destruct (is_expired now op'); [done|]. intros [= <-]. by apply Hok.
  - rewrite cleanup_expired_operations_eq.
    destruct (cleanup_expired now ops) as [n ops'] eqn:Hc.
    intros k op. change ops' with (n, ops').2. rewrite <- Hc, cleanup_expired_lookup.
    destruct (ops !! k) as [op'|] eqn:Hk; [|done].
    destruct (is_expired now op'); [done|]. intros [= <-]. by apply Hok.
  - intros k op. rewrite cancel_session_operations_lookup.
    destruct (ops !! k) as [op'|] eqn:Hk; [|done].
    intros [= <-]. by apply all_ok_cancel_if_live, Hok.
  - unfold mark_input_required. transition_ok Hok.
  - unfold mark_input_completed. transition_ok Hok.
Qed.

Lemma all_ok_run (calls : list call) ops : all_ok ops → all_ok (run calls ops).
Proof.
  revert ops. induction calls as [|c calls IH]; intros ops Hok; [done|].
  apply IH, all_ok_exec, Hok.
Qed.

(** *** Transitions *)

(** A transition method leaves terminal records as they are, whatever the
    token it is called with. *)
Lemma transit_terminal_frame (t : transition) tok' tok op ops :
  ops !! tok = Some op → is_terminal op = true →
  (transit t tok' ops).2 !! tok = Some op.
Proof.
  intros Hk Hterm. unfold is_terminal in Hterm. apply bool_decide_eq_true in Hterm.
  destruct t; cbn [transit];
    unfold mark_working, mark_input_required, mark_input_completed,
      complete_operation, fail_operation, cancel_operation, _get_operation;
    (destruct (ops !! tok') as [op'|] eqn:Hk'; [|done]);
    (case_bool_decide as Hsrc; [done|]); cbn [snd];
    (destruct (decide (tok' = tok)) as [->|Hne];
       [|by rewrite lookup_insert_ne]);
    exfalso; rewrite Hk in Hk'; injection Hk' as <-;
    destruct (status op);
    first [ discriminate Hsrc | absurd_elem Hsrc | absurd_elem Hterm ].
Qed.

(** C1. Each of the six transition methods, called with a token that is not
    in the operations map or whose record has a status outside the set the
    method accepts, returns [False] and hands back the map it was given:
    no key added or removed, no record changed.  (The methods have no
    raising path: a rejected call is the pair [(false, ops)].) *)
Theorem rejected_transition_changes_nothing (t : transition) tok ops :
  (ops !! tok = None ∨ ∃ op, ops !! tok = Some op ∧ status op ∉ allowed_sources t) →
  transit t tok ops = (false, ops).
Proof.
  intros [Hk|(op & Hk & Hsrc)];
    destruct t; cbn [transit allowed_sources] in *;
    unfold mark_working, mark_input_required, mark_input_completed,
      complete_operation, fail_operation, cancel_operation, _get_operation;
    rewrite Hk; try done;
    rewrite bool_decide_true; try done;
    intros Hs; apply Hsrc; rewrite Hs; apply list_elem_of_here.
Qed.

(** C4. On a record whose status is [submitted] or [working],
    [complete_operation] returns [True] and leaves under the token the same
    record with status [completed], the given result and [resolved_at] set
    to the clock reading; [fail_operation] returns [True] and leaves the
    record with status [failed], the given error string and [resolved_at]
    set to the clock reading.  All other fields and all other records are
    as before. *)
Theorem complete_and_fail_from_submitted_or_working tok op ops res err now :
  ops !! tok = Some op → status op ∈ [submitted; working] →
  complete_operation tok res now ops
  = (true,
     <[tok := {| token := token op; tool_name := tool_name op;
                 arguments := arguments op; status := completed;
                 created_at := created_at op; keep_alive := keep_alive op;
                 resolved_at := Some now; session_id := session_id op;
                 result := Some res; error := error op |}]> ops)
  ∧ fail_operation tok err now ops
  = (true,
     <[tok := {| token := token op; tool_name := tool_name op;
                 arguments := arguments op; status := failed;
                 created_at := created_at op; keep_alive := keep_alive op;
                 resolved_at := Some now; session_id := session_id op;
                 result := result op; error := Some err |}]> ops).
Proof.
  intros Hk Hsrc. unfold complete_operation, fail_operation, _get_operation.
  rewrite Hk, bool_decide_false by (by intros Hn). done.
Qed.

(** C5. [get_operation_result] returns [None] for a token that is not in the
    map and for a record whose status is anything but [completed] —
    [failed] included, and whatever the record holds in its [result]
    field; for a [completed] record it returns the stored [result].  In
    every map the manager can build a completed record holds a result, so
    there the call returns a result exactly for the tokens whose record
    exists and is [completed].  It is a lookup: it has no state to hand
    back. *)
Theorem get_operation_result_iff_completed :
  (∀ ops tok, ops !! tok = None → get_operation_result tok ops = None)
  ∧ (∀ ops tok op,
       ops !! tok = Some op → status op ≠ completed →
       get_operation_result tok ops = None)
  ∧ (∀ ops tok op,
       ops !! tok = Some op → status op = completed →
       get_operation_result tok ops = result op)
  ∧ (∀ (calls : list call) tok,
       is_Some (get_operation_result tok (run calls ∅))
       ↔ ∃ op, run calls ∅ !! tok = Some op ∧ status op = completed).
Proof.
  split; [|split; [|split]].
  - intros ops tok Hk. unfold get_operation_result, _get_operation. by rewrite Hk.
  - intros ops tok op Hk Hs. unfold get_operation_result, _get_operation.
    by rewrite Hk, bool_decide_true.
  - intros ops tok op Hk Hs. unfold get_operation_result, _get_operation.
    rewrite Hk, bool_decide_false; [done|]. by intros Hn.
  - intros calls tok.
    pose proof (all_ok_run calls ∅ all_ok_empty) as Hok.
    unfold get_operation_result, _get_operation.
    destruct (run calls ∅ !! tok) as [op|] eqn:Hk.
    + case_bool_decide as Hs.
      * split; [by intros [? ?]|]. intros (op' & [= <-] & Hs'). done.
      * split; [eauto|]. intros _.
        destruct (Hok _ _ Hk) as [_ Hst]. rewrite Hs in Hst. tauto.
    + split; [by intros [? ?]|]. by intros (op' & ? & _).
Qed.

(** The time of resolution is recorded for the completed and the failed
    records, and for no other. *)
Lemma resolved_at_iff_completed_or_failed (calls : list call) tok op :
  run calls ∅ !! tok = Some op →
  (is_Some (resolved_at op) ↔ status op = completed ∨ status op = failed).
Proof.
  intros Hk. destruct (all_ok_run calls ∅ all_ok_empty _ _ Hk) as [_ Hst].
  destruct (status op); split; try (intuition (eauto || discriminate));
    destruct Hst as (_ & _ & Hr); rewrite Hr; by intros [? ?].
Qed.

(** C2. A cancellation is a terminal transition that leaves [resolved_at]
    empty: after [create_operation] and a successful [cancel_operation], and
    likewise after [cancel_session_operations] on the session of the record,
    the record is [canceled] and its [resolved_at] is [None]. *)
Theorem canceled_record_has_no_resolved_at
    new_token now tool (args : ArgDict) keep sid :
  let created :=
    (create_operation (CallToolResult:=CallToolResult)
       new_token now tool args keep (Some sid) ∅).2 in
  (cancel_operation new_token created).1 = true
  ∧ (status <$> (cancel_operation new_token created).2 !! new_token) = Some canceled
  ∧ (resolved_at <$> (cancel_operation new_token created).2 !! new_token) = Some None
  ∧ (status <$> (cancel_session_operations sid created).2 !! new_token) = Some canceled
  ∧ (resolved_at <$> (cancel_session_operations sid created).2 !! new_token) = Some None.
Proof.
  intros created. subst created.
  unfold create_operation, _set_operation; cbn [snd].
  rewrite !cancel_session_operations_lookup.
  unfold cancel_operation, _get_operation. rewrite !lookup_insert_eq.
  cbn [status].
  rewrite (bool_decide_false (submitted ∉ [submitted; working]))
    by (intros Hn; apply Hn, list_elem_of_here).
  cbn [fst snd]. rewrite lookup_insert_eq.
  unfold cancel_if_live, live_in_session, is_terminal. cbn [session_id status fmap option_fmap option_map].
  rewrite bool_decide_true by done.
  rewrite (bool_decide_false (submitted ∈ _)) by (intros Hn; absurd_elem Hn).
  done.
Qed.

(** C3 (amended). In every map the manager can build, a record has a result
    and no error when its status is [completed], an error and no result when
    its status is [failed], and neither in every other status, [canceled]
    included. *)
Theorem result_and_error_by_status (calls : list call) tok op :
  run calls ∅ !! tok = Some op →
  match status op with
  | completed => is_Some (result op) ∧ error op = None
  | failed => result op = None ∧ is_Some (error op)
  | _ => result op = None ∧ error op = None
  end.
Proof.
  intros Hk. destruct (all_ok_run calls ∅ all_ok_empty _ _ Hk) as [_ Hst].
  destruct (status op); tauto.
Qed.

(** *** Session-scoped cancellation *)

Lemma live_in_session_spec sid op :
  live_in_session sid op = true
  ↔ session_id op = Some sid ∧ status op ∉ [completed; failed; canceled; unknown].
Proof.
  unfold live_in_session, is_terminal.
  rewrite andb_true_iff, bool_decide_eq_true, negb_true_iff, bool_decide_eq_false.
  done.
Qed.

(** C7. [cancel_session_operations sid] rewrites the map record by record:
    a record whose [session_id] is [sid] and whose status is none of
    [completed], [failed], [canceled], [unknown] becomes the same record
    with status [canceled]; every other record — of another session, or of
    [sid] and already terminal — is kept as it is; no key is added or
    removed; and the number returned is the number of records so
    canceled. *)
Theorem cancel_session_operations_cancels_live_records sid ops :
  cancel_session_operations sid ops
  = (size (filter (λ kv : string * Record_,
                     session_id kv.2 = Some sid
                     ∧ status kv.2 ∉ [completed; failed; canceled; unknown]) ops),
     (λ op,
        if bool_decide (session_id op = Some sid
                        ∧ status op ∉ [completed; failed; canceled; unknown])
        then {| token := token op; tool_name := tool_name op;
                arguments := arguments op; status := canceled;
                created_at := created_at op; keep_alive := keep_alive op;
                resolved_at := resolved_at op; session_id := session_id op;
                result := result op; error := error op |}
        else op) <$> ops).
Proof.
  rewrite (surjective_pairing (cancel_session_operations sid ops)). f_equal.
  - rewrite cancel_session_operations_count.
    assert (filter (λ kv : string * Record_, live_in_session sid kv.2 = true) ops
            = filter (λ kv : string * Record_,
                        session_id kv.2 = Some sid
                        ∧ status kv.2 ∉ [completed; failed; canceled; unknown]) ops)
      as ->; [|done].
    apply map_filter_ext. intros k op _. apply live_in_session_spec.
  - apply map_eq. intros k.
    rewrite cancel_session_operations_lookup, lookup_fmap.
    destruct (ops !! k) as [op|]; [|done]. cbn. f_equal.
    unfold cancel_if_live. destruct (live_in_session sid op) eqn:Hlive.
    + by rewrite bool_decide_true by (by apply live_in_session_spec).
    + rewrite bool_decide_false; [done|].
      intros Hl%live_in_session_spec. congruence.
Qed.

(** *** Expiry *)

Lemma truthy_Some (T : Q) : truthy (Some T) = true ↔ ¬ (T == 0)%Q.
Proof.
  unfold truthy. rewrite negb_true_iff. split.
  - intros Hf Heq. apply Qeq_bool_iff in Heq. congruence.
  - intros Hne. destruct (Qeq_bool T 0) eqn:Heq; [|done].
    by apply Qeq_bool_iff in Heq.
Qed.

(** A completed record resolved at a time other than [0] expires strictly
    after [resolved_at + keep_alive]. *)
Lemma completed_expiry op (T now : Q) :
  status op = completed → resolved_at op = Some T → ¬ (T == 0)%Q →
  (is_expired now op = true ↔ (T + inject_Z (keep_alive op) < now)%Q)
  ∧ (is_expired now op = false ↔ (now <= T + inject_Z (keep_alive op))%Q).
Proof.
  intros Hs Hr HT. apply truthy_Some in HT.
  unfold is_expired, ServerAsyncOperation_is_expired, server_is_expired.
  rewrite Hr, HT, Hs. cbn [negb].
  rewrite bool_decide_true by apply list_elem_of_here.
  split; [apply Qgtb_true|apply Qgtb_false].
Qed.

(** C8. A completed record whose [resolved_at] is [0.0] is reported as not
    expired at every query time, also at the times after
    [resolved_at + keep_alive]: the test [not self.resolved_at] takes the
    time stamp [0.0] for a missing one. *)
Theorem completed_at_time_zero_never_expires
    tok tool (args : ArgDict) created keep session (res : CallToolResult) (now : Q) :
  server_is_expired now
    {| token := tok; tool_name := tool; arguments := args; status := completed;
       created_at := created; keep_alive := keep; resolved_at := Some 0%Q;
       session_id := session; result := Some res; error := None |}
  = false.
Proof. reflexivity. Qed.

Lemma cancel_if_live_terminal sid op :
  is_terminal op = true → cancel_if_live sid op = op.
Proof.
  intros Hterm. unfold cancel_if_live, live_in_session.
  by rewrite Hterm, andb_false_r.
Qed.

(** A record that is [canceled] with no [resolved_at] stays in the map,
    unchanged, through every call that does not remove or replace it. *)
Lemma exec_keeps_unresolved_canceled (c : call) tok op ops :
  ops !! tok = Some op → status op = canceled → resolved_at op = None →
  ¬ replaces tok c → exec c ops !! tok = Some op.
Proof.
  intros Hk Hs Hr Hc.
  assert (is_terminal op = true) as Hterm.
  { unfold is_terminal. rewrite Hs. apply bool_decide_eq_true.
    do 2 apply list_elem_of_further. apply list_elem_of_here. }
  assert (∀ now, is_expired now op = false) as Hexp.
  { intros now. unfold is_expired, ServerAsyncOperation_is_expired, server_is_expired.
    by rewrite Hr. }
  destruct c; cbn [exec replaces] in *.
  - unfold create_operation, _set_operation. cbn [snd].
    by rewrite lookup_insert_ne.
  - by apply (transit_terminal_frame TMarkWorking).
  - by apply (transit_terminal_frame (TCompleteOperation res now)).
  - by apply (transit_terminal_frame (TFailOperation err now)).
  - by apply (transit_terminal_frame TCancelOperation).
  - unfold remove_operation, dict_pop. cbn [snd]. by rewrite lookup_delete_ne.
  - by rewrite cleanup_expired_lookup, Hk, Hexp.
  - rewrite cleanup_expired_operations_eq.
    destruct (cleanup_expired now ops) as [n ops'] eqn:Hclean.
    change ops' with (n, ops').2.
    by rewrite <- Hclean, cleanup_expired_lookup, Hk, Hexp.
  - rewrite cancel_session_operations_lookup, Hk.
    change (Some (cancel_if_live sid op) = Some op).
    by rewrite cancel_if_live_terminal.
  - by apply (transit_terminal_frame TMarkInputRequired).
  - by apply (transit_terminal_frame TMarkInputCompleted).
Qed.

(** C9. A record that [cancel_operation] has canceled and whose
    [resolved_at] is still [None] is never expired, whatever the clock
    reads; through any later calls that neither remove its token explicitly
    nor create an operation under it — every cleanup at every time
    included — it stays in the map as it is, and one more cleanup at any
    time keeps it too. *)
Theorem canceled_without_resolved_at_is_never_reaped
    tok ops0 ops op (calls : list call) :
  cancel_operation tok ops0 = (true, ops) →
  ops !! tok = Some op → resolved_at op = None →
  Forall (λ c, ¬ replaces tok c) calls →
  status op = canceled
  ∧ (∀ now, is_expired now op = false)
  ∧ run calls ops !! tok = Some op
  ∧ (∀ now, (cleanup_expired now (run calls ops)).2 !! tok = Some op).
Proof.
  intros Hcancel Hk Hr Hcalls.
  assert (status op = canceled) as Hs.
  { unfold cancel_operation, _get_operation in Hcancel.
    destruct (ops0 !! tok) as [op0|]; [|done].
    case_bool_decide; [done|]. injection Hcancel as <-.
    rewrite lookup_insert_eq in Hk. by injection Hk as <-. }
  assert (∀ now, is_expired now op = false) as Hexp.
  { intros now. unfold is_expired, ServerAsyncOperation_is_expired, server_is_expired.
    by rewrite Hr. }
  assert (run calls ops !! tok = Some op) as Hrun.
  { clear Hcancel. revert ops Hk.
    induction Hcalls as [|c calls Hc _ IH]; intros ops Hk; [done|].
    cbn [run foldl]. apply IH. by apply exec_keeps_unresolved_canceled. }
  repeat split; try done.
  intros now. by rewrite cleanup_expired_lookup, Hrun, Hexp.
Qed.

(** *** Creation *)

(** C10. [create_operation] stores the new record under the generated token
    without looking at what is there: when the token is already a key of the
    map, the record found under it afterwards is the new [submitted] one (no
    result, no error), no entry is added, every other entry is as before,
    and the result the old record held can no longer be fetched. *)
Theorem create_operation_overwrites
    new_token now tool (args : ArgDict) keep session ops (old : Record_) :
  ops !! new_token = Some old →
  let fresh :=
    {| token := new_token; tool_name := tool; arguments := args;
       status := submitted; created_at := now; keep_alive := keep;
       resolved_at := None; session_id := session;
       result := None; error := None |} in
  let ops' := (create_operation new_token now tool args keep session ops).2 in
  (create_operation new_token now tool args keep session ops).1 = fresh
  ∧ get_operation new_token ops' = Some fresh
  ∧ get_operation_result new_token ops' = None
  ∧ size ops' = size ops
  ∧ delete new_token ops' = delete new_token ops.
Proof.
  intros Hold fresh ops'. subst ops'.
  unfold create_operation, _set_operation, get_operation, get_operation_result,
    _get_operation.
  cbn [fst snd]. rewrite lookup_insert_eq. repeat split.
  - apply map_size_insert_Some. eauto.
  - apply delete_insert_eq.
Qed.

End ServerProperties.

(** ** The reaper *)


(** ** The properties on the sample run *)

Lemma rejected_transition_witness :
  transit TCancelOperation "t" ops_completed = (false, ops_completed).
Proof.
  apply rejected_transition_changes_nothing.
  right. exists sample_completed. split; [vm_compute; reflexivity|].
  intros Hin. absurd_elem Hin.
Defined.

Lemma complete_and_fail_witness :
  (complete_operation "t" "total=3" 12 ops_submitted).1 = true
  ∧ (fail_operation "t" "boom" 12 ops_submitted).1 = true.
Proof.
  destruct (complete_and_fail_from_submitted_or_working
              "t" sample_submitted ops_submitted "total=3" "boom" 12)
    as [Hc Hf].
  - vm_compute; reflexivity.
  - apply list_elem_of_here.
  - rewrite Hc, Hf. split; reflexivity.
Defined.

Lemma result_and_error_by_status_witness :
  is_Some (result sample_completed) ∧ error sample_completed = None.
Proof.
  apply (result_and_error_by_status
           [sample_create; MarkWorking "t"; CompleteOperation "t" "total=3" 12] "t"
           sample_completed).
  vm_compute; reflexivity.
Defined.

(** C3 as stated fails: the cancellation of a submitted operation succeeds
    and the record has neither a result nor an error afterwards. *)
Lemma canceled_record_has_neither_result_nor_error :
  (cancel_operation "t" ops_submitted).1 = true
  ∧ (cancel_operation "t" ops_submitted).2 !! "t" = Some sample_canceled
  ∧ ¬ exactly_one_populated sample_canceled.
Proof.
  split; [vm_compute; reflexivity|]. split; [vm_compute; reflexivity|].
  intros [[[r Hr] _]|[_ [e He]]]; discriminate.
Qed.

Lemma canceled_without_resolved_at_witness :
  run [CleanupExpired 1000; MarkWorking "t"; CreateOperation "u" 2000 "sum" sample_args 5 None;
       CancelSessionOperations "s"; CleanupExpired 100000] ops_canceled !! "t"
  = Some sample_canceled.
Proof.
  apply (canceled_without_resolved_at_is_never_reaped
           "t" ops_submitted ops_canceled sample_canceled).
  - vm_compute; reflexivity.
  - vm_compute; reflexivity.
  - reflexivity.
  - repeat (constructor; [by intros ?|]). constructor.
Defined.

Lemma create_operation_overwrites_witness :
  get_operation_result "t" ops_completed = Some "total=3"
  ∧ get_operation_result "t"
      (create_operation "t" 20 "sum" sample_args 5 (Some "s") ops_completed).2 = None
  ∧ size (create_operation "t" 20 "sum" sample_args 5 (Some "s") ops_completed).2
    = size ops_completed.
Proof.
  split; [vm_compute; reflexivity|].
  destruct (create_operation_overwrites
              "t" 20 "sum" sample_args 5 (Some "s") ops_completed sample_completed)
    as (_ & _ & Hres & Hsize & _).
  - vm_compute; reflexivity.
  - split; [exact Hres|exact Hsize].
Defined.

(** * Further properties of the server manager *)

Section ServerStateMachine.
Context {CallToolResult ArgDict : Type}.
Implicit Types (op : @ServerAsyncOperation CallToolResult ArgDict).
Implicit Types (ops : gmap string (@ServerAsyncOperation CallToolResult ArgDict)).
Implicit Types (t : @transition CallToolResult) (c : @call CallToolResult ArgDict).
Implicit Types (tok : string).

(** The six methods in one equation: look the record up, test the status
    against the accepted ones, store the assigned record. *)
Lemma transit_unfold t tok ops :
  transit t tok ops
  = match ops !! tok with
    | None => (false, ops)
    | Some op =>
        if bool_decide (status op ∈ allowed_sources t)
        then (true, <[tok := transit_record t op]> ops)
        else (false, ops)
    end.
Proof.
  destruct t; cbn [transit allowed_sources transit_record];
    unfold mark_working, mark_input_required, mark_input_completed,
      complete_operation, fail_operation, cancel_operation, _get_operation;
    (destruct (ops !! tok) as [op|]; [|done]);
    case_bool_decide as Hg.
  all: first
    [ by rewrite bool_decide_false
        by (intros Hin; apply list_elem_of_singleton in Hin; by apply Hg)
    | by rewrite bool_decide_false
    | by rewrite bool_decide_true by (by apply list_elem_of_singleton)
    | by rewrite bool_decide_true ].
Qed.

Lemma transit_record_identity t op :
  identity_fields (transit_record t op) = identity_fields op.
Proof. by destruct t. Qed.

Lemma transit_record_status t op : status (transit_record t op) = target_status t.
Proof. by destruct t. Qed.

(** X1. A transition method returns [True] exactly when the token is a key
    of the map and the status of its record is one the method accepts. *)
Theorem transition_succeeds_iff_allowed t tok ops :
  (transit t tok ops).1 = true
  ↔ ∃ op, ops !! tok = Some op ∧ status op ∈ allowed_sources t.
Proof.
  rewrite transit_unfold. destruct (ops !! tok) as [op|].
  - case_bool_decide as Hg; cbn [fst]; split; try done; eauto.
    intros (op' & [= <-] & Hin). done.
  - split; [done|]. by intros (op' & ? & _).
Qed.

(** X2. A transition method, accepted or not, touches no other entry of the
    map, adds and removes no key, and leaves the token, tool name,
    arguments, creation time, keep-alive and session of the record it is
    called on as they were. *)
Theorem transition_frame t tok ops :
  delete tok (transit t tok ops).2 = delete tok ops
  ∧ dom (transit t tok ops).2 = dom ops
  ∧ identity_fields <$> (transit t tok ops).2 !! tok = identity_fields <$> ops !! tok.
Proof.
  rewrite transit_unfold. destruct (ops !! tok) as [op|] eqn:Hk.
  - case_bool_decide; cbn [snd]; [|by rewrite Hk].
    split; [apply delete_insert_eq|]. split; [by apply dom_insert_lookup_L|].
    rewrite lookup_insert_eq. cbn. by rewrite transit_record_identity.
  - cbn [snd]. by rewrite Hk.
Qed.

(** X3. After an accepted transition the record under the token has the
    status the method stands for: [working] for [mark_working] and
    [mark_input_completed], [input_required] for [mark_input_required],
    [completed], [failed] and [canceled] for the three terminal methods. *)
Theorem accepted_transition_sets_target_status t tok ops ops' :
  transit t tok ops = (true, ops') →
  status <$> ops' !! tok = Some (target_status t).
Proof.
  rewrite transit_unfold. destruct (ops !! tok) as [op|]; [|done].
  case_bool_decide; [|done]. intros [= <-].
  rewrite lookup_insert_eq. cbn. by rewrite transit_record_status.
Qed.

(** X4. [is_terminal] holds of a stored record exactly when every
    transition method rejects its token. *)
Theorem terminal_iff_every_transition_rejected tok op ops :
  ops !! tok = Some op →
  (is_terminal op = true ↔ ∀ t, (transit t tok ops).1 = false).
Proof.
  intros Hk. unfold is_terminal. rewrite bool_decide_eq_true. split.
  - intros Hterm t. rewrite transit_unfold, Hk.
    case_bool_decide as Hsrc; [|done]. exfalso.
    destruct t, (status op); cbn [allowed_sources] in Hsrc;
      first [ absurd_elem Hsrc | absurd_elem Hterm ].
  - intros Hall.
    pose proof (Hall TMarkWorking) as H1.
    pose proof (Hall TMarkInputRequired) as H2.
    pose proof (Hall TMarkInputCompleted) as H3.
    rewrite transit_unfold, Hk in H1, H2, H3. cbn [allowed_sources] in *.
    destruct (status op).
    + rewrite bool_decide_true in H1 by apply list_elem_of_here. done.
    + rewrite bool_decide_true in H2
        by apply list_elem_of_further, list_elem_of_here. done.
    + rewrite bool_decide_true in H3 by apply list_elem_of_here. done.
    + apply list_elem_of_here.
    + apply list_elem_of_further, list_elem_of_here.
    + do 2 apply list_elem_of_further. apply list_elem_of_here.
    + do 3 apply list_elem_of_further. apply list_elem_of_here.
Qed.

Lemma transit_lookup_absent t tok' tok ops :
  ops !! tok = None → (transit t tok' ops).2 !! tok = None.
Proof.
  intros Hk. rewrite transit_unfold.
  destruct (ops !! tok') as [op'|] eqn:Hk'; [|done].
  case_bool_decide; [|done]. cbn [snd].
  rewrite lookup_insert_ne; [done|]. intros ->. congruence.
Qed.

Lemma exec_absent c tok ops :
  ops !! tok = None → created_token c ≠ Some tok → exec c ops !! tok = None.
Proof.
  intros Hk Hc. destruct c; cbn [exec created_token] in *.
  - unfold create_operation, _set_operation. cbn [snd].
    rewrite lookup_insert_ne; [done|]. congruence.
  - by apply (transit_lookup_absent TMarkWorking).
  - by apply (transit_lookup_absent (TCompleteOperation res now)).
  - by apply (transit_lookup_absent (TFailOperation err now)).
  - by apply (transit_lookup_absent TCancelOperation).
  - unfold remove_operation, dict_pop. cbn [snd].
    apply lookup_delete_None. by right.
  - by rewrite cleanup_expired_lookup, Hk.
  - rewrite cleanup_expired_operations_eq.
    destruct (cleanup_expired now ops) as [n ops'] eqn:Hclean.
    change ops' with (n, ops').2.
    by rewrite <- Hclean, cleanup_expired_lookup, Hk.
  - by rewrite cancel_session_operations_lookup, Hk.
  - by apply (transit_lookup_absent TMarkInputRequired).
  - by apply (transit_lookup_absent TMarkInputCompleted).
Qed.

Lemma exec_terminal c tok op ops :
  ops !! tok = Some op → is_terminal op = true → created_token c ≠ Some tok →
  exec c ops !! tok = Some op ∨ exec c ops !! tok = None.
Proof.
  intros Hk Hterm Hc. destruct c; cbn [exec created_token] in *.
  - left. unfold create_operation, _set_operation. cbn [snd].
    rewrite lookup_insert_ne; [done|]. congruence.
  - left. by apply (transit_terminal_frame TMarkWorking).
  - left. by apply (transit_terminal_frame (TCompleteOperation res now)).
  - left. by apply (transit_terminal_frame (TFailOperation err now)).
  - left. by apply (transit_terminal_frame TCancelOperation).
  - unfold remove_operation, dict_pop. cbn [snd].
    destruct (decide (tok0 = tok)) as [->|Hne].
    + right. apply lookup_delete_eq.
    + left. by rewrite lookup_delete_ne.
  - rewrite cleanup_expired_lookup, Hk. destruct (is_expired now op); eauto.
  - rewrite cleanup_expired_operations_eq.
    destruct (cleanup_expired now ops) as [n ops'] eqn:Hclean.
    change ops' with (n, ops').2.
    rewrite <- Hclean, cleanup_expired_lookup, Hk.
    destruct (is_expired now op); eauto.
  - left. rewrite cancel_session_operations_lookup, Hk.
    change (Some (cancel_if_live sid op) = Some op).
    by rewrite cancel_if_live_terminal.
  - left. by apply (transit_terminal_frame TMarkInputRequired).
  - left. by apply (transit_terminal_frame TMarkInputCompleted).
Qed.

Lemma run_absent (calls : list (@call CallToolResult ArgDict)) tok ops :
  ops !! tok = None → Forall (λ c, created_token c ≠ Some tok) calls →
  run calls ops !! tok = None.
Proof.
  intros Hk Hcalls. revert ops Hk.
  induction Hcalls as [|c calls Hc _ IH]; intros ops Hk; [done|].
  cbn [run foldl]. apply IH. by apply exec_absent.
Qed.

(** X5. A record in a terminal status is never modified again: through any
    calls that do not create an operation under its token, the record found
    under the token is the same one, or the token is gone (removed
    explicitly or by a cleanup). *)
Theorem terminal_record_is_only_ever_removed
    (calls : list (@call CallToolResult ArgDict)) tok op ops :
  ops !! tok = Some op → is_terminal op = true →
  Forall (λ c, created_token c ≠ Some tok) calls →
  run calls ops !! tok = Some op ∨ run calls ops !! tok = None.
Proof.
  intros Hk Hterm Hcalls. revert ops Hk.
  induction Hcalls as [|c calls Hc Hcalls IH]; intros ops Hk; [by left|].
  cbn [run foldl].
  destruct (exec_terminal c tok op ops Hk Hterm Hc) as [Hk'|Hk'].
  - by apply IH.
  - right. by apply run_absent.
Qed.

Lemma set_status_same op : set_status (status op) op = op.
Proof. by destruct op. Qed.

Lemma set_status_twice s s' op : set_status s (set_status s' op) = set_status s op.
Proof. done. Qed.

(** X6. Asking for input and getting it brings a working operation back to
    exactly the record it was; on a submitted operation the same two calls
    have the effect of [mark_working]. *)
Theorem input_required_round_trip tok op ops :
  ops !! tok = Some op →
  (status op = working →
   mark_input_completed tok (mark_input_required tok ops).2 = (true, ops))
  ∧ (status op = submitted →
     mark_input_completed tok (mark_input_required tok ops).2 = mark_working tok ops).
Proof.
  intros Hk.
  change (mark_input_required tok ops)
    with (transit (@TMarkInputRequired CallToolResult) tok ops).
  change (mark_working tok ops) with (transit (@TMarkWorking CallToolResult) tok ops).
  change (mark_input_completed tok ?o)
    with (transit (@TMarkInputCompleted CallToolResult) tok o).
  split; intros Hs; rewrite !transit_unfold, Hk; cbn [allowed_sources transit_record];
    rewrite Hs.
  - rewrite (bool_decide_true (working ∈ [submitted; working]))
      by apply list_elem_of_further, list_elem_of_here.
    cbn [snd]. rewrite lookup_insert_eq. cbn [status set_status].
    rewrite bool_decide_true by apply list_elem_of_here.
    rewrite insert_insert_eq, set_status_twice, <- Hs, set_status_same.
    by rewrite insert_id.
  - rewrite (bool_decide_true (submitted ∈ [submitted; working]))
      by apply list_elem_of_here.
    cbn [snd]. rewrite lookup_insert_eq. cbn [status set_status].
    rewrite !bool_decide_true by apply list_elem_of_here.
    by rewrite insert_insert_eq, set_status_twice.
Qed.

(** X7. An operation waiting for input cannot be completed, failed or
    canceled by its token: the three methods return [False].
    [cancel_session_operations] on its session does cancel it. *)
Theorem input_required_is_canceled_by_session_only
    tok op ops sid (res : CallToolResult) err now :
  ops !! tok = Some op → status op = input_required → session_id op = Some sid →
  complete_operation tok res now ops = (false, ops)
  ∧ fail_operation tok err now ops = (false, ops)
  ∧ cancel_operation tok ops = (false, ops)
  ∧ (cancel_session_operations sid ops).2 !! tok = Some (set_status canceled op).
Proof.
  intros Hk Hs Hsid.
  change (complete_operation tok res now ops)
    with (transit (TCompleteOperation res now) tok ops).
  change (fail_operation tok err now ops) with (transit (TFailOperation err now) tok ops).
  change (cancel_operation tok ops)
    with (transit (@TCancelOperation CallToolResult) tok ops).
  rewrite !transit_unfold, Hk. cbn [allowed_sources]. rewrite Hs.
  rewrite bool_decide_false by (intros Hin; absurd_elem Hin).
  repeat split.
  rewrite cancel_session_operations_lookup, Hk.
  change (cancel_if_live sid <$> Some op) with (Some (cancel_if_live sid op)).
  unfold cancel_if_live, live_in_session, is_terminal. rewrite Hs, Hsid.
  rewrite bool_decide_true by done.
  rewrite bool_decide_false by (intros Hin; absurd_elem Hin). done.
Qed.

(** X8. In every map the manager can build, a record is stored under its
    own token and its status is never [unknown]: no method assigns that
    status. *)
Theorem reachable_records_are_keyed_by_their_token
    (calls : list (@call CallToolResult ArgDict)) tok op :
  run calls ∅ !! tok = Some op → token op = tok ∧ status op ≠ unknown.
Proof.
  intros Hk. destruct (all_ok_run calls ∅ all_ok_empty _ _ Hk) as [Htok Hst].
  split; [done|]. intros Hs. by rewrite Hs in Hst.
Qed.

(** *** Removal and creation *)

(** X9. [remove_operation] returns [True] exactly when the token was a key;
    afterwards the token is absent and every other entry is as before, a
    second removal returns [False], and no transition method accepts the
    removed token or puts a record back under it.  The method of the base
    class behaves the same. *)
Theorem remove_operation_then_nothing_left tok ops t :
  (remove_operation tok ops).1 = bool_decide (is_Some (ops !! tok))
  ∧ (remove_operation tok ops).2 = delete tok ops
  ∧ remove_operation tok (remove_operation tok ops).2
    = (false, (remove_operation tok ops).2)
  ∧ transit t tok (remove_operation tok ops).2 = (false, (remove_operation tok ops).2)
  ∧ base_remove_operation tok ops = remove_operation tok ops.
Proof.
  unfold base_remove_operation, _remove_operation, remove_operation, dict_pop.
  cbn [fst snd]. rewrite transit_unfold, lookup_delete_eq, delete_delete_eq.
  repeat split.
Qed.

(** X10. With a token that is not yet a key, [create_operation] adds one
    entry, keeps every entry that was there, stores the record it returns
    under the token, and that record survives a cleanup at any time. *)
Theorem create_operation_with_fresh_token
    new_token now tool (args : ArgDict) keep session ops later :
  ops !! new_token = None →
  get_operation new_token (create_operation new_token now tool args keep session ops).2
  = Some (create_operation new_token now tool args keep session ops).1
  ∧ size (create_operation new_token now tool args keep session ops).2 = S (size ops)
  ∧ ops ⊆ (create_operation new_token now tool args keep session ops).2
  ∧ (cleanup_expired later
       (create_operation new_token now tool args keep session ops).2).2 !! new_token
    = Some (create_operation new_token now tool args keep session ops).1.
Proof.
  intros Hk. unfold create_operation, _set_operation, get_operation, _get_operation.
  cbn [fst snd]. rewrite cleanup_expired_lookup, lookup_insert_eq.
  repeat split.
  - by apply map_size_insert_None.
  - by apply insert_subseteq.
Qed.

Lemma run_creations_size (calls : list (@call CallToolResult ArgDict)) ops :
  Forall (λ c, is_Some (created_token c)) calls →
  NoDup (omap created_token calls) →
  (∀ tok, tok ∈ omap created_token calls → ops !! tok = None) →
  size (run calls ops) = size ops + length calls.
Proof.
  intros Hcalls. revert ops.
  induction Hcalls as [|c calls [tok Hc] _ IH]; intros ops Hnd Hfresh;
    cbn [run foldl length]; [lia|].
  cbn [omap list_omap] in Hnd, Hfresh. rewrite Hc in Hnd, Hfresh.
  apply NoDup_cons in Hnd as [Htok Hnd].
  destruct c; try discriminate Hc. injection Hc as ->.
  cbn [exec]. unfold create_operation, _set_operation. cbn [snd].
  change (foldl (λ d c, exec c d) ?o calls) with (run calls o).
  rewrite IH.
  - rewrite map_size_insert_None by apply Hfresh, list_elem_of_here. lia.
  - done.
  - intros tok' Hin. rewrite lookup_insert_ne; [|by intros ->].
    by apply Hfresh, list_elem_of_further.
Qed.

(** X11. Creations under pairwise distinct tokens never collide: starting
    from the empty manager, as many records are stored as operations were
    created. *)
Theorem distinct_tokens_give_distinct_records
    (calls : list (@call CallToolResult ArgDict)) :
  Forall (λ c, is_Some (created_token c)) calls →
  NoDup (omap created_token calls) →
  size (run calls ∅) = length calls.
Proof.
  intros Hcalls Hnd. by rewrite run_creations_size.
Qed.

End ServerStateMachine.

(** * Further properties of expiry and of the reaper *)

Section ReaperProperties.
Context {Op : Type} `{!Operation Op}.
Implicit Types (ops : gmap string Op) (tok k : string).

Lemma cleanup_expired_size now ops :
  size (cleanup_expired now ops).2 + (cleanup_expired now ops).1 = size ops.
Proof.
  unfold cleanup_expired. cbn [fst snd].
  apply remove_all_size; [apply expired_tokens_NoDup|].
  intros k (op & -> & _)%expired_tokens_spec. eauto.
Qed.

Lemma expired_tokens_after_cleanup now ops :
  expired_tokens now (cleanup_expired now ops).2 = [].
Proof.
  apply elem_of_nil_inv. intros k (op & Hk & Hexp)%expired_tokens_spec.
  rewrite cleanup_expired_lookup in Hk.
  destruct (ops !! k) as [op'|]; [|done].
  destruct (is_expired now op') eqn:Hexp'; [done|]. congruence.
Qed.

(** X12. A cleanup leaves nothing for a second cleanup at the same clock
    reading: that one removes no record and returns [0]. *)
Theorem cleanup_expired_idempotent now ops :
  cleanup_expired now (cleanup_expired now ops).2 = (0, (cleanup_expired now ops).2).
Proof.
  unfold cleanup_expired at 1. by rewrite expired_tokens_after_cleanup.
Qed.

(** X13. [cleanup_expired] returns [0] exactly when it leaves the map as it
    was. *)
Theorem cleanup_expired_zero_iff_unchanged now ops :
  (cleanup_expired now ops).1 = 0 ↔ (cleanup_expired now ops).2 = ops.
Proof.
  split.
  - unfold cleanup_expired. cbn [fst snd]. intros Hlen.
    apply nil_length_inv in Hlen. by rewrite Hlen.
  - intros Heq. pose proof (cleanup_expired_size now ops) as Hsize.
    rewrite Heq in Hsize. lia.
Qed.


End ReaperProperties.

Section ServerExpiry.
Context {CallToolResult ArgDict : Type}.
Implicit Types (op : @ServerAsyncOperation CallToolResult ArgDict).
Implicit Types (ops : gmap string (@ServerAsyncOperation CallToolResult ArgDict)).
Implicit Types (tok sid : string).

Lemma server_is_expired_inv now op :
  server_is_expired now op = true →
  status op ∈ [completed; failed; canceled]
  ∧ ∃ T, resolved_at op = Some T ∧ ¬ (T == 0)%Q
         ∧ (T + inject_Z (keep_alive op) < now)%Q.
Proof.
  unfold server_is_expired. destruct (resolved_at op) as [T|]; [|done].
  destruct (truthy (Some T)) eqn:Htruthy; cbn [negb]; [|done].
  apply truthy_Some in Htruthy. case_bool_decide as Hs; [|done].
  rewrite Qgtb_true. intros Hlt. split; [done|]. eauto.
Qed.


(** X14. The reaper's test never fires on an unresolved record: a server
    record is reported expired only if its status is [completed], [failed]
    or [canceled] and it has a [resolved_at] other than [0.0]. *)
Theorem server_is_expired_only_if_resolved now op :
  server_is_expired now op = true →
  status op ∈ [completed; failed; canceled]
  ∧ ∃ T, resolved_at op = Some T ∧ ¬ (T == 0)%Q.
Proof.
  intros (Hs & T & Hr & HT & _)%server_is_expired_inv. eauto.
Qed.




(** X17. The reaper only takes completed, failed and canceled records: a
    record in any other status — submitted, working, waiting for input, or
    [unknown] — survives a cleanup at any time. *)
Theorem unresolved_records_survive_cleanup now tok op ops :
  ops !! tok = Some op → status op ∉ [completed; failed; canceled] →
  (cleanup_expired now ops).2 !! tok = Some op.
Proof.
  intros Hk Hs. rewrite cleanup_expired_lookup, Hk.
  change (is_expired now op) with (server_is_expired now op).
  destruct (server_is_expired now op) eqn:Hexp; [|done].
  by apply server_is_expired_inv in Hexp as [? _].
Qed.



(** *** Sessions *)

(** X19. [get_session_operations sid] lists the records stored in the map
    whose [session_id] is [sid], and only those; a record without a session
    is in no list. *)
Theorem get_session_operations_spec sid op ops :
  op ∈ get_session_operations sid ops
  ↔ ∃ tok, ops !! tok = Some op ∧ session_id op = Some sid.
Proof.
  unfold get_session_operations, session_items. rewrite list_elem_of_fmap. split.
  - intros [[tok op'] [-> [Hs Hin%elem_of_map_to_list]%list_elem_of_filter]]. eauto.
  - intros (tok & Hk & Hs). exists (tok, op). split; [done|].
    apply list_elem_of_filter. by rewrite elem_of_map_to_list.
Qed.

Lemma live_in_session_cancel_if_live sid op :
  live_in_session sid (cancel_if_live sid op) = false.
Proof.
  unfold cancel_if_live. destruct (live_in_session sid op) eqn:Hlive; [|done].
  unfold live_in_session, is_terminal. cbn [status set_status session_id].
  rewrite (bool_decide_true (canceled ∈ _))
    by (do 2 apply list_elem_of_further; apply list_elem_of_here).
  apply andb_false_r.
Qed.

Lemma cancel_if_live_twice sid op :
  cancel_if_live sid (cancel_if_live sid op) = cancel_if_live sid op.
Proof.
  unfold cancel_if_live at 1. by rewrite live_in_session_cancel_if_live.
Qed.

(** X20. After [cancel_session_operations sid] every record of the session
    is terminal. *)
Theorem session_is_terminal_after_cancel sid op ops :
  op ∈ get_session_operations sid (cancel_session_operations sid ops).2 →
  is_terminal op = true.
Proof.
  unfold get_session_operations, session_items. rewrite list_elem_of_fmap.
  intros [[tok op'] [-> [Hs Hin%elem_of_map_to_list]%list_elem_of_filter]].
  cbn [snd] in *. rewrite cancel_session_operations_lookup in Hin.
  destruct (ops !! tok) as [op0|]; [|done]. injection Hin as <-.
  pose proof (live_in_session_cancel_if_live sid op0) as Hlive.
  unfold live_in_session in Hlive. rewrite bool_decide_true in Hlive by done.
  by apply negb_false_iff in Hlive.
Qed.

(** X21. A second [cancel_session_operations] on the same session finds
    nothing to cancel: it returns [0] and leaves the map as it is. *)
Theorem cancel_session_operations_idempotent sid ops :
  cancel_session_operations sid (cancel_session_operations sid ops).2
  = (0, (cancel_session_operations sid ops).2).
Proof.
  rewrite (surjective_pairing (cancel_session_operations sid _)). f_equal.
  - rewrite cancel_session_operations_count. apply map_size_empty_iff.
    apply map_eq. intros k. rewrite lookup_empty, map_lookup_filter.
    rewrite cancel_session_operations_lookup.
    destruct (ops !! k) as [op|]; [|done]. cbn.
    rewrite live_in_session_cancel_if_live. by rewrite option_guard_False.
  - apply map_eq. intros k. rewrite !cancel_session_operations_lookup.
    destruct (ops !! k) as [op|]; [|done]. cbn. by rewrite cancel_if_live_twice.
Qed.

End ServerExpiry.

(** * Properties of the client manager *)


(** X22. [get_tool_name] returns what [track_operation] stored: the tool
    name just tracked for the tracked token, also when the token was
    tracked before, and what it returned before for any other token. *)
Theorem get_tool_name_track_operation tok tok' tool keep now
    (ops : gmap string ClientAsyncOperation) :
  get_tool_name tok' (track_operation tok tool keep now ops)
  = if decide (tok = tok') then Some tool else get_tool_name tok' ops.
Proof.
  unfold get_tool_name, track_operation, _get_operation, _set_operation.
  destruct (decide (tok = tok')) as [->|Hne].
  - by rewrite lookup_insert_eq.
  - by rewrite lookup_insert_ne.
Qed.



(** ** The further properties on the sample run *)

Lemma accepted_transition_witness :
  status <$> (mark_working "t" ops_submitted).2 !! "t" = Some working.
Proof.
  apply (accepted_transition_sets_target_status
           (@TMarkWorking string) "t" ops_submitted (mark_working "t" ops_submitted).2).
  vm_compute; reflexivity.
Defined.

Lemma terminal_iff_rejected_witness :
  is_terminal sample_completed = true
  ↔ ∀ t, (transit t "t" ops_completed).1 = false.
Proof.
  apply (terminal_iff_every_transition_rejected "t" sample_completed ops_completed).
  vm_compute; reflexivity.
Defined.

Lemma terminal_record_witness :
  run [MarkWorking "t"; CancelSessionOperations "s"; sample_create_other;
       CleanupExpired 13] ops_completed !! "t" = Some sample_completed
  ∨ run [MarkWorking "t"; CancelSessionOperations "s"; sample_create_other;
         CleanupExpired 13] ops_completed !! "t" = None.
Proof.
  apply terminal_record_is_only_ever_removed.
  - vm_compute; reflexivity.
  - reflexivity.
  - repeat (constructor; [by intros ?|]). constructor.
Defined.

Lemma input_required_round_trip_witness :
  mark_input_completed "t" (mark_input_required "t" ops_working).2 = (true, ops_working).
Proof.
  destruct (input_required_round_trip "t" sample_working ops_working) as [Hback _].
  - vm_compute; reflexivity.
  - apply Hback. reflexivity.
Defined.

Lemma input_required_witness :
  cancel_operation "t" ops_waiting = (false, ops_waiting)
  ∧ (cancel_session_operations "s" ops_waiting).2 !! "t" = Some sample_canceled.
Proof.
  destruct (input_required_is_canceled_by_session_only
              "t" sample_waiting ops_waiting "s" "total=3" "boom" 12)
    as (_ & _ & Hcancel & Hsession).
  - vm_compute; reflexivity.
  - reflexivity.
  - reflexivity.
  - split; [exact Hcancel|exact Hsession].
Defined.

Lemma reachable_records_witness :
  token sample_completed = "t" ∧ status sample_completed ≠ unknown.
Proof.
  apply (reachable_records_are_keyed_by_their_token
           [sample_create; MarkWorking "t"; CompleteOperation "t" "total=3" 12] "t").
  vm_compute; reflexivity.
Defined.

Lemma resolved_at_witness :
  is_Some (resolved_at sample_completed)
  ↔ status sample_completed = completed ∨ status sample_completed = failed.
Proof.
  apply (resolved_at_iff_completed_or_failed
           [sample_create; MarkWorking "t"; CompleteOperation "t" "total=3" 12] "t").
  vm_compute; reflexivity.
Defined.

Lemma create_with_fresh_token_witness :
  size (create_operation "u" 20 "sum" sample_args 5 None ops_completed).2
  = S (size ops_completed).
Proof.
  destruct (create_operation_with_fresh_token
              "u" 20 "sum" sample_args 5 None ops_completed 0)
    as (_ & Hsize & _).
  - vm_compute; reflexivity.
  - exact Hsize.
Defined.

Lemma distinct_tokens_witness :
  size (run [sample_create; sample_create_other] ∅) = 2.
Proof.
  apply (distinct_tokens_give_distinct_records [sample_create; sample_create_other]).
  - repeat (constructor; [by eexists|]). constructor.
  - apply (bool_decide_unpack _). vm_compute. exact I.
Defined.



Lemma unresolved_records_witness :
  (cleanup_expired 1000 ops_submitted).2 !! "t" = Some sample_submitted.
Proof.
  apply unresolved_records_survive_cleanup.
  - vm_compute; reflexivity.
  - intros Hin. absurd_elem Hin.
Defined.


Lemma server_is_expired_only_if_resolved_witness :
  status sample_completed ∈ [completed; failed; canceled]
  ∧ ∃ T, resolved_at sample_completed = Some T ∧ ¬ (T == 0)%Q.
Proof.
  apply (server_is_expired_only_if_resolved 18 sample_completed).
  reflexivity.
Defined.


Lemma get_operation_result_gate_witness :
  get_operation_result "t" ops_failed_with_result = None
  ∧ get_operation_result "t" ops_completed = Some "total=3"
  ∧ get_operation_result "u" ops_completed = None.
Proof.
  destruct (@get_operation_result_iff_completed string (list (string * Z)))
    as (Habsent & Hother & Hdone & _).
  split; [|split].
  - apply (Hother ops_failed_with_result "t" sample_failed_with_result).
    + vm_compute; reflexivity.
    + discriminate.
  - rewrite (Hdone ops_completed "t" sample_completed).
    + reflexivity.
    + vm_compute; reflexivity.
    + reflexivity.
  - apply Habsent. vm_compute; reflexivity.
Defined.

Lemma cancel_session_operations_witness :
  cancel_session_operations "s" ops_sessions
  = (1, <["t" := sample_canceled]> ops_sessions).
Proof.
  rewrite cancel_session_operations_cancels_live_records.
  vm_compute. reflexivity.
Defined.

Lemma session_is_terminal_witness : is_terminal sample_canceled = true.
Proof.
  apply (session_is_terminal_after_cancel "s" sample_canceled ops_submitted).
  vm_compute. apply list_elem_of_here.
Defined.

